(** * Version resources of the Zabbix agent 2 PostgreSQL plugin

    A model of [src/windres/resource.h], the header that the resource
    script of the Windows build includes.  The header is a layer of
    preprocessor macros: it gives every version component that the build
    has not defined a replacement list of its own, and composes from the
    components the comma separated numeric versions and the string
    literals of the version resource.

    The development has three layers:
    - [CString]: the characters a string literal denotes (escape
      sequences) and the text a reader of NUL terminated strings sees;
    - [Cpp]: preprocessing tokens, the macro table, rescanning expansion
      of object-like macros and the [#] operator;
    - the header itself: one definition per macro, under the macro's name.

    Scope of the model.  The build binds a component on the command line to
    a sequence of numbers, string literals and the punctuators
    [{ } , - +]; such a sequence names no macro.  White space between the
    tokens of one binding, parentheses and the [##] operator are not
    modelled. *)

From Stdlib Require Import String Ascii NArith DecimalString DecimalPos DecimalN.
From stdpp Require Import gmap strings list fin_maps.

Local Open Scope string_scope.
Local Open Scope nat_scope.
Local Open Scope stdpp_scope.
Local Open Scope list_scope.

(** ** String literals *)

Module CString.

Definition NUL : ascii := "000"%char.
Definition newline : ascii := "010"%char.
Definition dquote : ascii := "034"%char.
Definition backslash : ascii := "\"%char.

(** The decoder of escape sequences reads a literal one character at a
    time; the state records the escape sequence it is in. *)
Inductive escape_state :=
  | Plain
  | Escape
  | Octal (acc : N) (more : nat)
  | Hex (acc : option N).

Definition octal_digit (c : ascii) : option N :=
  let n := N_of_ascii c in
  if ((48 <=? n) && (n <=? 55))%N then Some (n - 48)%N else None.

Definition hex_digit (c : ascii) : option N :=
  let n := N_of_ascii c in
  if ((48 <=? n) && (n <=? 57))%N then Some (n - 48)%N
  else if ((65 <=? n) && (n <=? 70))%N then Some (n - 55)%N
  else if ((97 <=? n) && (n <=? 102))%N then Some (n - 87)%N
  else None.

Definition simple_escape (c : ascii) : option ascii :=
  if decide (c = "n"%char) then Some newline
  else if decide (c = "t"%char) then Some "009"%char
  else if decide (c = "r"%char) then Some "013"%char
  else if decide (c = "a"%char) then Some "007"%char
  else if decide (c = "b"%char) then Some "008"%char
  else if decide (c = "f"%char) then Some "012"%char
  else if decide (c = "v"%char) then Some "011"%char
  else if decide (c = backslash) then Some backslash
  else if decide (c = dquote) then Some dquote
  else if decide (c = "'"%char) then Some "'"%char
  else if decide (c = "?"%char) then Some "?"%char
  else None.

Definition char_of (n : N) : option string :=
  if (n <? 256)%N then Some (String (ascii_of_N n) "") else None.

(** What an escape sequence in progress yields when the literal, or the
    sequence, ends. *)
Definition flush (st : escape_state) : option string :=
  match st with
  | Plain => Some ""
  | Escape => None
  | Octal acc _ => char_of acc
  | Hex None => None
  | Hex (Some acc) => char_of acc
  end.

Definition plain_step (c : ascii) : string * escape_state :=
  if decide (c = backslash) then ("", Escape) else (String c "", Plain).

Definition finish (st : escape_state) (c : ascii) : option (string * escape_state) :=
  out ← flush st;
  Some (out +:+ (plain_step c).1, (plain_step c).2).

Definition step (st : escape_state) (c : ascii) : option (string * escape_state) :=
  match st with
  | Plain => Some (plain_step c)
  | Escape =>
      match octal_digit c with
      | Some d => Some ("", Octal d 2)
      | None =>
          if decide (c = "x"%char) then Some ("", Hex None)
          else e ← simple_escape c; Some (String e "", Plain)
      end
  | Octal acc (S more) =>
      match octal_digit c with
      | Some d => Some ("", Octal (8 * acc + d) more)
      | None => finish st c
      end
  | Octal acc O => finish st c
  | Hex acc =>
      match hex_digit c with
      | Some d => Some ("", Hex (Some (16 * default 0%N acc + d)%N))
      | None => finish st c
      end
  end.

Fixpoint decode_from (st : escape_state) (s : string) : option string :=
  match s with
  | "" => flush st
  | String c s' =>
      r ← step st c;
      rest ← decode_from r.2 s';
      Some (r.1 +:+ rest)
  end.

(** The characters of the literal spelled ["s"]; [None] when [s] holds an
    escape sequence that is not one, or that denotes no character. *)
Definition literal_chars (s : string) : option string := decode_from Plain s.

(** The text of a NUL terminated string: what precedes the first NUL. *)
Fixpoint c_str (s : string) : string :=
  match s with
  | "" => ""
  | String c s' => if decide (c = NUL) then "" else String c (c_str s')
  end.

Fixpoint no_char (x : ascii) (s : string) : bool :=
  match s with
  | "" => true
  | String c s' => negb (bool_decide (c = x)) && no_char x s'
  end.

(** The segments of [s] between the occurrences of [sep]. *)
Fixpoint split_on (sep : ascii) (s : string) : list string :=
  match s with
  | "" => [""]
  | String c s' =>
      if decide (c = sep) then "" :: split_on sep s'
      else match split_on sep s' with
           | seg :: segs => String c seg :: segs
           | [] => [String c ""]
           end
  end.

(** [sub] occurs in [s]. *)
Definition contains (sub s : string) : Prop :=
  ∃ before after, s = before +:+ sub +:+ after.

Definition is_digit (c : ascii) : bool :=
  let n := N_of_ascii c in ((48 <=? n) && (n <=? 57))%N.

(** The decimal numeral of a non-negative integer. *)
Definition decimal (n : N) : string := NilZero.string_of_uint (N.to_uint n).

(** The value of a decimal numeral. *)
Definition decimal_value (s : string) : option N :=
  N.of_uint <$> NilZero.uint_of_string s.

End CString.

Export CString.

(** ** The preprocessor *)

Module Cpp.

Inductive punct := LBrace | RBrace | Comma | Minus | Plus.

(** Tokens that name no macro.  A number and a string literal are kept
    as they are spelled; the spelling of a literal excludes its quotes. *)
Inductive constant :=
  | Number (spelling : string)
  | StringLit (spelling : string)
  | Punct (p : punct).

Inductive token :=
  | Ident (name : string)
  | Const (c : constant).

Coercion Const : constant >-> token.

Global Instance punct_eq_dec : EqDecision punct.
Proof. solve_decision. Defined.
Global Instance constant_eq_dec : EqDecision constant.
Proof. solve_decision. Defined.
Global Instance token_eq_dec : EqDecision token.
Proof. solve_decision. Defined.

(** The macro table: the replacement list of every object-like macro
    that is defined. *)
Abbreviation macro_table := (gmap string (list token)).

(** [-D name=tokens] on the command line. *)
Definition predefine (name : string) (value : option (list constant))
    (env : macro_table) : macro_table :=
  match value with
  | Some ts => <[name := Const <$> ts]> env
  | None => env
  end.

(** [#define name body] *)
Definition define (name : string) (body : list token) (env : macro_table) : macro_table :=
  <[name := body]> env.

(** [#ifndef name], [#define name body], [#endif] *)
Definition ifndef_define (name : string) (body : list token)
    (env : macro_table) : macro_table :=
  match env !! name with
  | Some _ => env
  | None => define name body env
  end.

(** Macro replacement with rescanning.  The replacement list of a macro
    is rescanned with the macro itself removed from the table, so that a
    macro is never replaced inside its own expansion.  Every nested
    replacement removes a macro from the table, hence as many levels as
    the table has entries suffice. *)
Definition replace_with (rescan : macro_table → list token → list token)
    (env : macro_table) (t : token) : list token :=
  match t with
  | Ident x =>
      match env !! x with
      | Some body => rescan (delete x env) body
      | None => [t]
      end
  | Const _ => [t]
  end.

Fixpoint expand_fuel (fuel : nat) (env : macro_table) (ts : list token) : list token :=
  match fuel with
  | O => ts
  | S fuel' => ts ≫= replace_with (expand_fuel fuel') env
  end.

Definition expand (env : macro_table) (ts : list token) : list token :=
  expand_fuel (size env) env ts.

(** The [#] operator.  The spelling of each token goes into the new
    literal; inside a string literal, and before its quotes, a backslash
    is inserted before each double quote and backslash. *)
Definition punct_spelling (p : punct) : string :=
  match p with
  | LBrace => "{"
  | RBrace => "}"
  | Comma => ","
  | Minus => "-"
  | Plus => "+"
  end.

Fixpoint escape_literal (s : string) : string :=
  match s with
  | "" => ""
  | String c s' =>
      if decide (c = dquote ∨ c = backslash)
      then String backslash (String c (escape_literal s'))
      else String c (escape_literal s')
  end.

Definition stringified (t : token) : string :=
  match t with
  | Ident x => x
  | Const (Number s) => s
  | Const (StringLit s) => escape_literal (String dquote s +:+ String dquote "")
  | Const (Punct p) => punct_spelling p
  end.

Definition stringify (ts : list token) : token :=
  StringLit (String.concat "" (stringified <$> ts)).

(** Preprocessing stops with a diagnostic when a macro is invoked with
    the wrong number of arguments. *)
Inductive error := WrongArgumentCount (macro : string).

Inductive result (A : Type) :=
  | Ok (a : A)
  | Err (e : error).
Global Arguments Ok {A} a.
Global Arguments Err {A} e.

Global Instance result_ret : MRet result := λ A a, Ok a.
Global Instance result_bind : MBind result := λ A B f m,
  match m with
  | Ok a => f a
  | Err e => Err e
  end.

Definition is_ok {A} (r : result A) : bool :=
  match r with Ok _ => true | Err _ => false end.

(** The arguments of a macro invocation are separated by commas. *)
Definition has_comma (ts : list token) : bool :=
  bool_decide (Const (Punct Comma) ∈ ts).

(** Adjacent string literals denote the concatenation of their
    characters; a sequence with any other token denotes no string. *)
Definition token_chars (t : token) : option string :=
  match t with
  | Const (StringLit s) => literal_chars s
  | _ => None
  end.

Definition string_value (ts : list token) : option string :=
  String.concat "" <$> mapM token_chars ts.

(** A comma separated list of numbers denotes the tuple of their values:
    the fields between the commas, each one decimal number. *)
Fixpoint fields (ts : list token) : list (list token) :=
  match ts with
  | [] => [[]]
  | t :: ts' =>
      if decide (t = Const (Punct Comma)) then [] :: fields ts'
      else match fields ts' with
           | f :: fs => (t :: f) :: fs
           | [] => [[t]]
           end
  end.

Definition field_value (f : list token) : option N :=
  match f with
  | [Const (Number s)] => decimal_value s
  | _ => None
  end.

Definition tuple_value (ts : list token) : option (list N) :=
  mapM field_value (fields ts).

(** The text that a sequence of string literals shows. *)
Definition text_of (ts : list token) : option string :=
  c_str <$> string_value ts.

End Cpp.

Export Cpp.

(** ** The header [resource.h] *)

(** *** Function-like macros *)

(** [#define ZBX_STR2(str) #str] *)
Definition ZBX_STR2 (str : list token) : token := stringify str.

(** [#define ZBX_STR(str) ZBX_STR2(str)].  The argument is completely
    macro-replaced before it is substituted for [str]; the invocation of
    [ZBX_STR2] that results has one argument only if that replacement holds
    no comma. *)
Definition ZBX_STR (env : macro_table) (str : list token) : result token :=
  let arg := expand env str in
  if has_comma arg then Err (WrongArgumentCount "ZBX_STR2")
  else Ok (ZBX_STR2 arg).

(** *** The macro table *)

(** The header up to its last conditional definition, inside its include
    guard.  Each default is the macro's own name in braces, except that
    of [ZABBIX_VERSION_RC_NUM]; [ZABBIX_VERSION_REVISION] has no
    conditional definition. *)
Definition resource_h (env : macro_table) : macro_table :=
  match env !! "_RESOURCE_H_" with
  | Some _ => env
  | None =>
      let env := define "_RESOURCE_H_" [] env in
      let env := ifndef_define "VER_FILEDESCRIPTION_STR"
        [Const (Punct LBrace); Ident "VER_FILEDESCRIPTION_STR"; Const (Punct RBrace)] env in
      let env := ifndef_define "ZABBIX_VERSION_MAJOR"
        [Const (Punct LBrace); Ident "ZABBIX_VERSION_MAJOR"; Const (Punct RBrace)] env in
      let env := ifndef_define "ZABBIX_VERSION_MINOR"
        [Const (Punct LBrace); Ident "ZABBIX_VERSION_MINOR"; Const (Punct RBrace)] env in
      let env := ifndef_define "ZABBIX_VERSION_PATCH"
        [Const (Punct LBrace); Ident "ZABBIX_VERSION_PATCH"; Const (Punct RBrace)] env in
      let env := ifndef_define "ZABBIX_VERSION_RC"
        [Const (Punct LBrace); Ident "ZABBIX_VERSION_RC"; Const (Punct RBrace)] env in
      let env := ifndef_define "ZABBIX_VERSION_RC_NUM"
        [Const (Punct LBrace); Ident "ZABBIX_RC_NUM"; Const (Punct RBrace)] env in
      ifndef_define "ZABBIX_LICENSE_YEARS"
        [Const (Punct LBrace); Ident "ZABBIX_LICENSE_YEARS"; Const (Punct RBrace)] env
  end.

(** *** The version macros

    Each is the expansion of the macro's replacement list under the table
    [env] that [resource_h] leaves.  The version macros are defined last
    and no binding or default names one of them, so they need no entry in
    the table. *)

Definition VER_FILEVERSION (env : macro_table) : list token :=
  expand env
    [Ident "ZABBIX_VERSION_MAJOR"; Const (Punct Comma);
     Ident "ZABBIX_VERSION_MINOR"; Const (Punct Comma);
     Ident "ZABBIX_VERSION_PATCH"; Const (Punct Comma);
     Ident "ZABBIX_VERSION_RC_NUM"].

Definition VER_FILEVERSION_STR (env : macro_table) : result (list token) :=
  major ← ZBX_STR env [Ident "ZABBIX_VERSION_MAJOR"];
  minor ← ZBX_STR env [Ident "ZABBIX_VERSION_MINOR"];
  patch ← ZBX_STR env [Ident "ZABBIX_VERSION_PATCH"];
  revision ← ZBX_STR env [Ident "ZABBIX_VERSION_REVISION"];
  mret [major; Const (StringLit "."); minor; Const (StringLit ".");
        patch; Const (StringLit "."); revision; Const (StringLit "\0")].

Definition VER_PRODUCTVERSION (env : macro_table) : list token :=
  expand env
    [Ident "ZABBIX_VERSION_MAJOR"; Const (Punct Comma);
     Ident "ZABBIX_VERSION_MINOR"; Const (Punct Comma);
     Ident "ZABBIX_VERSION_PATCH"].

Definition VER_PRODUCTVERSION_STR (env : macro_table) : result (list token) :=
  major ← ZBX_STR env [Ident "ZABBIX_VERSION_MAJOR"];
  minor ← ZBX_STR env [Ident "ZABBIX_VERSION_MINOR"];
  patch ← ZBX_STR env [Ident "ZABBIX_VERSION_PATCH"];
  mret ([major; Const (StringLit "."); minor; Const (StringLit "."); patch]
        ++ expand env [Ident "ZABBIX_VERSION_RC"]
        ++ [Const (StringLit "\0")]).

Definition VER_COMPANYNAME_STR : list token := [Const (StringLit "Zabbix SIA\0")].

Definition VER_LEGALCOPYRIGHT_STR (env : macro_table) : list token :=
  ([Const (StringLit "Copyright (C) ")]
   ++ expand env [Ident "ZABBIX_LICENSE_YEARS"]
   ++ [Const (StringLit " ")]
   ++ VER_COMPANYNAME_STR).

Definition VER_PRODUCTNAME_STR : list token := [Const (StringLit "Zabbix\0")].

(** *** Resolution

    What the build passes on the command line: for each macro that the
    header leaves to the build, the tokens it is bound to, if any. *)
Record CommandLine := {
  D_VER_FILEDESCRIPTION_STR : option (list constant);
  D_ZABBIX_VERSION_MAJOR : option (list constant);
  D_ZABBIX_VERSION_MINOR : option (list constant);
  D_ZABBIX_VERSION_PATCH : option (list constant);
  D_ZABBIX_VERSION_RC : option (list constant);
  D_ZABBIX_VERSION_RC_NUM : option (list constant);
  D_ZABBIX_LICENSE_YEARS : option (list constant);
  D_ZABBIX_VERSION_REVISION : option (list constant)
}.

Definition predefined (cl : CommandLine) : macro_table :=
  predefine "VER_FILEDESCRIPTION_STR" (D_VER_FILEDESCRIPTION_STR cl)
  (predefine "ZABBIX_VERSION_MAJOR" (D_ZABBIX_VERSION_MAJOR cl)
  (predefine "ZABBIX_VERSION_MINOR" (D_ZABBIX_VERSION_MINOR cl)
  (predefine "ZABBIX_VERSION_PATCH" (D_ZABBIX_VERSION_PATCH cl)
  (predefine "ZABBIX_VERSION_RC" (D_ZABBIX_VERSION_RC cl)
  (predefine "ZABBIX_VERSION_RC_NUM" (D_ZABBIX_VERSION_RC_NUM cl)
  (predefine "ZABBIX_LICENSE_YEARS" (D_ZABBIX_LICENSE_YEARS cl)
  (predefine "ZABBIX_VERSION_REVISION" (D_ZABBIX_VERSION_REVISION cl) ∅))))))).

(** The version descriptor: the expansions of the version macros, which
    the resource script places in the version resource.  A string field is
    a sequence of tokens; [string_value] gives the string it denotes, if it
    is one, and [tuple_value] the numbers of a numeric field. *)
Record VersionDescriptor := {
  numericFileVersion : list token;
  numericProductVersion : list token;
  fileVersionString : list token;
  productVersionString : list token;
  companyName : list token;
  productName : list token;
  legalCopyright : list token
}.

(** Resolution: the header is preprocessed under the definitions of the
    command line, and every version macro is expanded. *)
Definition resolve (cl : CommandLine) : result VersionDescriptor :=
  let env := resource_h (predefined cl) in
  file_version_str ← VER_FILEVERSION_STR env;
  product_version_str ← VER_PRODUCTVERSION_STR env;
  mret {| numericFileVersion := VER_FILEVERSION env;
          numericProductVersion := VER_PRODUCTVERSION env;
          fileVersionString := file_version_str;
          productVersionString := product_version_str;
          companyName := VER_COMPANYNAME_STR;
          productName := VER_PRODUCTNAME_STR;
          legalCopyright := VER_LEGALCOPYRIGHT_STR env |}.

(** Modelled from the spec: the VersionComponents that the build supplies
    (the build scripts are not part of this header).  A number is a
    non-negative integer; a string is given as the spelling of the literal
    that the build passes. *)
Record VersionComponents := {
  major : N;
  minor : N;
  patch : N;
  releaseCandidateTag : string;
  releaseCandidateOrdinal : N;
  revision : N;
  licenseYears : string
}.

(** Modelled from the spec: the command line of a build that binds every
    component, a number to its decimal numeral and a string to a string
    literal, and that binds the file description to [description]. *)
Definition bind (description : option (list constant)) (vc : VersionComponents)
    : CommandLine :=
  {| D_VER_FILEDESCRIPTION_STR := description;
     D_ZABBIX_VERSION_MAJOR := Some [Number (decimal (major vc))];
     D_ZABBIX_VERSION_MINOR := Some [Number (decimal (minor vc))];
     D_ZABBIX_VERSION_PATCH := Some [Number (decimal (patch vc))];
     D_ZABBIX_VERSION_RC := Some [StringLit (releaseCandidateTag vc)];
     D_ZABBIX_VERSION_RC_NUM := Some [Number (decimal (releaseCandidateOrdinal vc))];
     D_ZABBIX_LICENSE_YEARS := Some [StringLit (licenseYears vc)];
     D_ZABBIX_VERSION_REVISION := Some [Number (decimal (revision vc))] |}.

(** The components of the version, the macro of each, and what the command
    line binds it to. *)
Inductive component :=
  | Major
  | Minor
  | Patch
  | Revision
  | ReleaseCandidateTag
  | ReleaseCandidateOrdinal
  | LicenseYears.

Global Instance component_eq_dec : EqDecision component.
Proof. solve_decision. Defined.

Definition macro_of (c : component) : string :=
  match c with
  | Major => "ZABBIX_VERSION_MAJOR"
  | Minor => "ZABBIX_VERSION_MINOR"
  | Patch => "ZABBIX_VERSION_PATCH"
  | Revision => "ZABBIX_VERSION_REVISION"
  | ReleaseCandidateTag => "ZABBIX_VERSION_RC"
  | ReleaseCandidateOrdinal => "ZABBIX_VERSION_RC_NUM"
  | LicenseYears => "ZABBIX_LICENSE_YEARS"
  end.

Definition bound (cl : CommandLine) (c : component) : option (list constant) :=
  match c with
  | Major => D_ZABBIX_VERSION_MAJOR cl
  | Minor => D_ZABBIX_VERSION_MINOR cl
  | Patch => D_ZABBIX_VERSION_PATCH cl
  | Revision => D_ZABBIX_VERSION_REVISION cl
  | ReleaseCandidateTag => D_ZABBIX_VERSION_RC cl
  | ReleaseCandidateOrdinal => D_ZABBIX_VERSION_RC_NUM cl
  | LicenseYears => D_ZABBIX_LICENSE_YEARS cl
  end.

(** The default of a component: what the header defines its macro as when
    the command line defines nothing. *)
Definition built_in_default (c : component) : option (list token) :=
  resource_h ∅ !! macro_of c.

(** The tokens that stand for a component after the header: its binding,
    else its default, else the name of its macro, which is then no macro. *)
Definition replacement (cl : CommandLine) (c : component) : list token :=
  match bound cl c with
  | Some value => Const <$> value
  | None => default [Ident (macro_of c)] (built_in_default c)
  end.

(** The components that the header turns into string literals, and whether
    each of their replacements is a single macro argument. *)
Definition stringized_components : list component := [Major; Minor; Patch; Revision].

Definition comma_free (cl : CommandLine) : bool :=
  forallb (λ c, negb (has_comma (replacement cl c))) stringized_components.

(** The descriptor in terms of the replacements of the components. *)
Definition descriptor_of (cl : CommandLine) : VersionDescriptor :=
  {| numericFileVersion :=
       replacement cl Major ++ [Const (Punct Comma)] ++
       replacement cl Minor ++ [Const (Punct Comma)] ++
       replacement cl Patch ++ [Const (Punct Comma)] ++
       replacement cl ReleaseCandidateOrdinal;
     numericProductVersion :=
       replacement cl Major ++ [Const (Punct Comma)] ++
       replacement cl Minor ++ [Const (Punct Comma)] ++
       replacement cl Patch;
     fileVersionString :=
       [stringify (replacement cl Major); Const (StringLit ".");
        stringify (replacement cl Minor); Const (StringLit ".");
        stringify (replacement cl Patch); Const (StringLit ".");
        stringify (replacement cl Revision); Const (StringLit "\0")];
     productVersionString :=
       [stringify (replacement cl Major); Const (StringLit ".");
        stringify (replacement cl Minor); Const (StringLit ".");
        stringify (replacement cl Patch)]
       ++ replacement cl ReleaseCandidateTag ++ [Const (StringLit "\0")];
     companyName := [Const (StringLit "Zabbix SIA\0")];
     productName := [Const (StringLit "Zabbix\0")];
     legalCopyright :=
       [Const (StringLit "Copyright (C) ")] ++ replacement cl LicenseYears ++
       [Const (StringLit " "); Const (StringLit "Zabbix SIA\0")] |}.

(** A string field carries a terminating NUL of its own when its last
    token is a string literal whose characters end with NUL. *)
Definition NUL_terminated (field : list token) : Prop :=
  (∃ front s text,
     field = front ++ [Const (StringLit s)] ∧
     literal_chars s = Some (text +:+ String NUL "")) ∧
  (∀ value, string_value field = Some value → ∃ text, value = text +:+ String NUL "").

(** The two sets of components of the specification's examples. *)
Definition release_7_2_5 : VersionComponents :=
  {| major := 7; minor := 2; patch := 5; releaseCandidateTag := "";
     releaseCandidateOrdinal := 0; revision := 3; licenseYears := "2001-2025" |}.

Definition candidate_7_4_0 : VersionComponents :=
  {| major := 7; minor := 4; patch := 0; releaseCandidateTag := "rc1";
     releaseCandidateOrdinal := 1; revision := 0; licenseYears := "2001-2025" |}.

(** The command line [cl] with the binding of component [c] replaced. *)
Definition set_binding (c : component) (value : option (list constant))
    (cl : CommandLine) : CommandLine :=
  {| D_VER_FILEDESCRIPTION_STR := D_VER_FILEDESCRIPTION_STR cl;
     D_ZABBIX_VERSION_MAJOR :=
       if decide (c = Major) then value else D_ZABBIX_VERSION_MAJOR cl;
     D_ZABBIX_VERSION_MINOR :=
       if decide (c = Minor) then value else D_ZABBIX_VERSION_MINOR cl;
     D_ZABBIX_VERSION_PATCH :=
       if decide (c = Patch) then value else D_ZABBIX_VERSION_PATCH cl;
     D_ZABBIX_VERSION_RC :=
       if decide (c = ReleaseCandidateTag) then value else D_ZABBIX_VERSION_RC cl;
     D_ZABBIX_VERSION_RC_NUM :=
       if decide (c = ReleaseCandidateOrdinal) then value else D_ZABBIX_VERSION_RC_NUM cl;
     D_ZABBIX_LICENSE_YEARS :=
       if decide (c = LicenseYears) then value else D_ZABBIX_LICENSE_YEARS cl;
     D_ZABBIX_VERSION_REVISION :=
       if decide (c = Revision) then value else D_ZABBIX_VERSION_REVISION cl |}.

(** The components for which the header has a conditional definition. *)
Definition guarded (c : component) : bool :=
  match c with
  | Revision => false
  | _ => true
  end.



(** The macros that the header defines under a condition: its include
    guard, and those it defines unless they are defined already. *)
Definition guarded_names : list string :=
  ["VER_FILEDESCRIPTION_STR"; "ZABBIX_VERSION_MAJOR"; "ZABBIX_VERSION_MINOR";
   "ZABBIX_VERSION_PATCH"; "ZABBIX_VERSION_RC"; "ZABBIX_VERSION_RC_NUM";
   "ZABBIX_LICENSE_YEARS"].


(** The placeholder that stands for a guarded macro in the header: a name
    in braces, the macro's own except for [ZABBIX_VERSION_RC_NUM]. *)
Definition placeholder (name : string) : list token :=
  [Const (Punct LBrace);
   Ident (if decide (name = "ZABBIX_VERSION_RC_NUM") then "ZABBIX_RC_NUM" else name);
   Const (Punct RBrace)].

(** The next default values for new objects, which the header defines for
    the resource editor: [#ifdef APSTUDIO_INVOKED],
    [#ifndef APSTUDIO_READONLY_SYMBOLS], four [#define]s. *)
Definition studio_defaults (env : macro_table) : macro_table :=
  match env !! "APSTUDIO_INVOKED" with
  | None => env
  | Some _ =>
      match env !! "APSTUDIO_READONLY_SYMBOLS" with
      | Some _ => env
      | None =>
          let env := define "_APS_NEXT_RESOURCE_VALUE" [Const (Number "105")] env in
          let env := define "_APS_NEXT_COMMAND_VALUE" [Const (Number "40001")] env in
          let env := define "_APS_NEXT_CONTROL_VALUE" [Const (Number "1000")] env in
          define "_APS_NEXT_SYMED_VALUE" [Const (Number "101")] env
      end
  end.

Definition studio_names : list string :=
  ["_APS_NEXT_RESOURCE_VALUE"; "_APS_NEXT_COMMAND_VALUE"; "_APS_NEXT_CONTROL_VALUE";
   "_APS_NEXT_SYMED_VALUE"].

(** The table after the whole header: inside the include guard, the
    conditional definitions and then the editor's block. *)
Definition resource_h_whole (env : macro_table) : macro_table :=
  match env !! "_RESOURCE_H_" with
  | Some _ => env
  | None => studio_defaults (resource_h env)
  end.

(** The names that the version macros can reach: the macros of the
    components and the name in the default of the ordinal. *)
Definition version_name (x : string) : Prop :=
  (∃ c, x = macro_of c) ∨ x = "ZABBIX_RC_NUM".

(** * Properties *)

(** ** String literals *)

Section literals.

Lemma no_char_app x s t : no_char x (s +:+ t) = no_char x s && no_char x t.
Proof.
  induction s as [|c s IH]; simpl; [done|].
  rewrite IH. by destruct (negb _).
Qed.

(** A spelling without backslash denotes itself. *)
Lemma literal_chars_plain s : no_char backslash s = true → literal_chars s = Some s.
Proof.
  unfold literal_chars. induction s as [|c s IH]; simpl; [done|].
  intros [Hc Hs]%andb_prop. apply negb_true_iff, bool_decide_eq_false in Hc.
  unfold plain_step. destruct (decide (c = backslash)); [done|].
  simpl. by rewrite (IH Hs).
Qed.

Lemma c_str_app s t : no_char NUL s = true → c_str (s +:+ t) = s +:+ c_str t.
Proof.
  induction s as [|c s IH]; simpl; [done|].
  intros [Hc Hs]%andb_prop. apply negb_true_iff, bool_decide_eq_false in Hc.
  destruct (decide (c = NUL)); [done|]. by rewrite (IH Hs).
Qed.

Lemma c_str_terminated s t : no_char NUL s = true → c_str (s +:+ String NUL t) = s.
Proof.
  induction s as [|c s IH]; simpl; [done|].
  intros [Hc Hs]%andb_prop. apply negb_true_iff, bool_decide_eq_false in Hc.
  destruct (decide (c = NUL)); [done|]. by rewrite (IH Hs).
Qed.

Lemma c_str_NUL_r s t : c_str (s +:+ String NUL t) = c_str s.
Proof.
  induction s as [|c s IH]; simpl; [done|].
  destruct (decide (c = NUL)); [done|]. by rewrite IH.
Qed.

Lemma split_on_plain sep s : no_char sep s = true → split_on sep s = [s].
Proof.
  induction s as [|c s IH]; simpl; [done|].
  intros [Hc Hs]%andb_prop. apply negb_true_iff, bool_decide_eq_false in Hc.
  destruct (decide (c = sep)); [done|]. by rewrite (IH Hs).
Qed.

Lemma split_on_app sep s t :
  no_char sep s = true → split_on sep (s +:+ String sep t) = s :: split_on sep t.
Proof.
  induction s as [|c s IH]; simpl.
  - intros _. by destruct (decide (sep = sep)).
  - intros [Hc Hs]%andb_prop. apply negb_true_iff, bool_decide_eq_false in Hc.
    destruct (decide (c = sep)); [done|]. by rewrite (IH Hs).
Qed.

(** A decimal numeral holds digits only. *)
Lemma string_of_uint_no_char x d :
  is_digit x = false → no_char x (NilEmpty.string_of_uint d) = true.
Proof.
  intros Hx. induction d; simpl; [done|..];
    rewrite IHd, andb_true_r; apply negb_true_iff, bool_decide_eq_false;
    intros <-; discriminate Hx.
Qed.

Lemma decimal_no_char x n : is_digit x = false → no_char x (decimal n) = true.
Proof.
  intros Hx. unfold decimal, NilZero.string_of_uint.
  destruct (N.to_uint n) eqn:E; try apply string_of_uint_no_char; try done.
  simpl. apply andb_true_intro. split; [|done].
  apply negb_true_iff, bool_decide_eq_false. intros <-. discriminate Hx.
Qed.

Lemma literal_chars_decimal n : literal_chars (decimal n) = Some (decimal n).
Proof. by apply literal_chars_plain, decimal_no_char. Qed.

End literals.

(** ** Macro replacement *)

Section expansion.

Implicit Types (env : macro_table) (ts body : list token) (x : string).

Lemma expand_fuel_S fuel env ts :
  expand_fuel (S fuel) env ts = ts ≫= replace_with (expand_fuel fuel) env.
Proof. done. Qed.

Lemma expand_fuel_empty fuel ts : expand_fuel fuel ∅ ts = ts.
Proof.
  destruct fuel as [|fuel]; [done|]. rewrite expand_fuel_S.
  induction ts as [|t ts IH]; [done|].
  rewrite bind_cons, IH. destruct t as [x|c]; simpl; [|done].
  by rewrite lookup_empty.
Qed.

(** Fuel beyond the size of the table changes nothing. *)
Lemma expand_fuel_stable n m env ts :
  size env ≤ n → size env ≤ m → expand_fuel n env ts = expand_fuel m env ts.
Proof.
  revert m env ts. induction n as [|n IH]; intros m env ts Hn Hm.
  - assert (env = ∅) as -> by (apply map_size_empty_inv; lia).
    by rewrite !expand_fuel_empty.
  - destruct m as [|m].
    + assert (env = ∅) as -> by (apply map_size_empty_inv; lia).
      by rewrite !expand_fuel_empty.
    + rewrite !expand_fuel_S. apply list_bind_ext; [|done].
      intros [x|c]; simpl; [|done].
      destruct (env !! x) as [body|] eqn:Hx; [|done].
      apply IH; rewrite map_size_delete, Hx; lia.
Qed.

Lemma expand_fuel_enough fuel env ts :
  size env ≤ fuel → expand_fuel fuel env ts = expand env ts.
Proof. intros. by apply expand_fuel_stable. Qed.

(** The equation of [expand]. *)
Lemma expand_unfold env ts : expand env ts = ts ≫= replace_with expand env.
Proof.
  unfold expand at 1. destruct (size env) as [|n] eqn:Hsize.
  - apply map_size_empty_inv in Hsize as ->. simpl.
    induction ts as [|t ts IH]; [done|].
    rewrite bind_cons, <-IH. destruct t as [x|c]; simpl; [|done].
    by rewrite lookup_empty.
  - rewrite expand_fuel_S. apply list_bind_ext; [|done].
    intros [x|c]; simpl; [|done].
    destruct (env !! x) as [body|] eqn:Hx; [|done].
    apply expand_fuel_enough. rewrite map_size_delete, Hx, Hsize. simpl. lia.
Qed.

Lemma expand_nil env : expand env [] = [].
Proof. by rewrite expand_unfold. Qed.

Lemma expand_app env ts1 ts2 : expand env (ts1 ++ ts2) = expand env ts1 ++ expand env ts2.
Proof. by rewrite !expand_unfold, bind_app. Qed.

Lemma expand_cons env t ts : expand env (t :: ts) = expand env [t] ++ expand env ts.
Proof. apply (expand_app env [t] ts). Qed.

Lemma expand_const env (c : constant) : expand env [Const c] = [Const c].
Proof. by rewrite expand_unfold. Qed.

Lemma expand_undefined env x : env !! x = None → expand env [Ident x] = [Ident x].
Proof. intros Hx. rewrite expand_unfold, bind_singleton. simpl. by rewrite Hx. Qed.

Lemma expand_defined env x body :
  env !! x = Some body → expand env [Ident x] = expand (delete x env) body.
Proof.
  intros Hx. rewrite expand_unfold, bind_singleton. simpl. by rewrite Hx.
Qed.

(** Tokens that name no macro of the table are left as they are. *)
Lemma expand_inert env ts :
  (∀ x, Ident x ∈ ts → env !! x = None) → expand env ts = ts.
Proof.
  induction ts as [|t ts IH]; intros Hts; [apply expand_nil|].
  rewrite expand_cons, IH by (intros; apply Hts; by right).
  destruct t as [x|c].
  - rewrite expand_undefined; [done|]. apply Hts. by left.
  - by rewrite expand_const.
Qed.

Lemma expand_constants env (cs : list constant) : expand env (Const <$> cs) = Const <$> cs.
Proof.
  apply expand_inert. intros x [c [? _]]%list_elem_of_fmap. discriminate.
Qed.

End expansion.

(** ** The macro table of the header *)

Section table.

Implicit Types (env : macro_table) (cl : CommandLine) (c : component).

Lemma lookup_predefine name value env x :
  predefine name value env !! x =
    match value with
    | Some ts => if decide (name = x) then Some (Const <$> ts) else env !! x
    | None => env !! x
    end.
Proof. destruct value; simpl; [apply lookup_insert | done]. Qed.

Lemma lookup_define name body env x :
  define name body env !! x = if decide (name = x) then Some body else env !! x.
Proof. apply lookup_insert. Qed.

Lemma lookup_ifndef_define name body env x :
  ifndef_define name body env !! x =
    match env !! x with
    | Some b => Some b
    | None => if decide (name = x) then Some body else None
    end.
Proof.
  unfold ifndef_define. destruct (env !! name) eqn:Hname.
  - destruct (env !! x) eqn:Hx; [done|]. case_decide; congruence.
  - rewrite lookup_define. case_decide; subst; [by rewrite Hname|].
    by destruct (env !! x).
Qed.

Lemma lookup_predefine_ne name value env x :
  name ≠ x → predefine name value env !! x = env !! x.
Proof. intros. rewrite lookup_predefine. destruct value; [by case_decide | done]. Qed.

Lemma lookup_predefine_eq name value env :
  predefine name value env !! name =
    match value with
    | Some ts => Some (Const <$> ts)
    | None => env !! name
    end.
Proof. rewrite lookup_predefine. destruct value; [by case_decide | done]. Qed.

Lemma predefined_guard cl : predefined cl !! "_RESOURCE_H_" = None.
Proof. unfold predefined. rewrite !lookup_predefine_ne by discriminate. apply lookup_empty. Qed.

(** The header adds definitions and changes none. *)
Lemma resource_h_lookup env x :
  env !! "_RESOURCE_H_" = None →
  resource_h env !! x =
    match env !! x with
    | Some body => Some body
    | None => resource_h ∅ !! x
    end.
Proof.
  intros Hguard. unfold resource_h. rewrite Hguard, lookup_empty. cbv zeta.
  rewrite !lookup_ifndef_define, !lookup_define, lookup_empty.
  destruct (env !! x) as [body|] eqn:Hx; [|done].
  case_decide; [congruence|done].
Qed.

Ltac skip_predefine :=
  repeat (rewrite lookup_predefine_ne by discriminate).

Lemma predefined_component cl c :
  predefined cl !! macro_of c = (λ value : list constant, Const <$> value) <$> bound cl c.
Proof.
  unfold predefined.
  destruct c; simpl; skip_predefine; rewrite lookup_predefine_eq;
    skip_predefine; rewrite ?lookup_empty;
    by match goal with |- context [match ?v with _ => _ end] => destruct v end.
Qed.

Lemma predefined_other cl x :
  x ≠ "VER_FILEDESCRIPTION_STR" → (∀ c, x ≠ macro_of c) → predefined cl !! x = None.
Proof.
  intros Hd Hc. unfold predefined.
  rewrite lookup_predefine_ne by done.
  rewrite (lookup_predefine_ne _ _ _ _ (not_eq_sym (Hc Major))).
  rewrite (lookup_predefine_ne _ _ _ _ (not_eq_sym (Hc Minor))).
  rewrite (lookup_predefine_ne _ _ _ _ (not_eq_sym (Hc Patch))).
  rewrite (lookup_predefine_ne _ _ _ _ (not_eq_sym (Hc ReleaseCandidateTag))).
  rewrite (lookup_predefine_ne _ _ _ _ (not_eq_sym (Hc ReleaseCandidateOrdinal))).
  rewrite (lookup_predefine_ne _ _ _ _ (not_eq_sym (Hc LicenseYears))).
  rewrite (lookup_predefine_ne _ _ _ _ (not_eq_sym (Hc Revision))).
  apply lookup_empty.
Qed.

Lemma resource_h_component cl c :
  resource_h (predefined cl) !! macro_of c =
    match bound cl c with
    | Some value => Some (Const <$> value)
    | None => built_in_default c
    end.
Proof.
  rewrite resource_h_lookup by apply predefined_guard.
  rewrite predefined_component. by destruct (bound cl c).
Qed.

(** The header defines [ZABBIX_VERSION_RC_NUM] in terms of a name that is
    no macro. *)
Lemma resource_h_ZABBIX_RC_NUM cl : resource_h (predefined cl) !! "ZABBIX_RC_NUM" = None.
Proof.
  rewrite resource_h_lookup by apply predefined_guard.
  rewrite predefined_other; [done|done|]. by intros [].
Qed.

End table.

(** ** The expansions of the header's macros *)

Section header.

Implicit Types (cl : CommandLine) (c : component).

Lemma built_in_default_inert cl c body :
  built_in_default c = Some body →
  ∀ x, Ident x ∈ body → delete (macro_of c) (resource_h (predefined cl)) !! x = None.
Proof.
  intros Hbody x Hx.
  destruct c; vm_compute in Hbody; simplify_eq.
  all: apply list_elem_of_In in Hx; simpl in Hx.
  all: destruct Hx as [Hx|[Hx|[Hx|[]]]]; try discriminate Hx.
  all: injection Hx as <-; simpl.
  all: first [apply lookup_delete_eq
             | rewrite lookup_delete_ne by discriminate; apply resource_h_ZABBIX_RC_NUM].
Qed.

(** The macro of a component expands to the component's replacement. *)
Lemma expand_component cl c :
  expand (resource_h (predefined cl)) [Ident (macro_of c)] = replacement cl c.
Proof.
  pose proof (resource_h_component cl c) as Hlookup. unfold replacement.
  destruct (bound cl c) as [value|].
  - rewrite (expand_defined _ _ _ Hlookup). apply expand_constants.
  - destruct (built_in_default c) as [body|] eqn:Hdefault; simpl.
    + rewrite (expand_defined _ _ _ Hlookup). apply expand_inert.
      by apply built_in_default_inert.
    + by apply expand_undefined.
Qed.

Lemma expand_cons_component cl c ts :
  expand (resource_h (predefined cl)) (Ident (macro_of c) :: ts) =
    replacement cl c ++ expand (resource_h (predefined cl)) ts.
Proof. by rewrite expand_cons, expand_component. Qed.

Lemma expand_cons_const env (k : constant) ts :
  expand env (Const k :: ts) = Const k :: expand env ts.
Proof. by rewrite expand_cons, expand_const. Qed.

Lemma ZBX_STR_component cl c :
  ZBX_STR (resource_h (predefined cl)) [Ident (macro_of c)] =
    if has_comma (replacement cl c) then Err (WrongArgumentCount "ZBX_STR2")
    else Ok (stringify (replacement cl c)).
Proof. unfold ZBX_STR. by rewrite expand_component. Qed.

Lemma VER_FILEVERSION_replacements cl :
  VER_FILEVERSION (resource_h (predefined cl)) =
    replacement cl Major ++ [Const (Punct Comma)] ++
    replacement cl Minor ++ [Const (Punct Comma)] ++
    replacement cl Patch ++ [Const (Punct Comma)] ++
    replacement cl ReleaseCandidateOrdinal.
Proof.
  unfold VER_FILEVERSION.
  rewrite (expand_cons_component cl Major), expand_cons_const.
  rewrite (expand_cons_component cl Minor), expand_cons_const.
  rewrite (expand_cons_component cl Patch), expand_cons_const.
  by rewrite (expand_cons_component cl ReleaseCandidateOrdinal), expand_nil, app_nil_r.
Qed.

Lemma VER_PRODUCTVERSION_replacements cl :
  VER_PRODUCTVERSION (resource_h (predefined cl)) =
    replacement cl Major ++ [Const (Punct Comma)] ++
    replacement cl Minor ++ [Const (Punct Comma)] ++
    replacement cl Patch.
Proof.
  unfold VER_PRODUCTVERSION.
  rewrite (expand_cons_component cl Major), expand_cons_const.
  rewrite (expand_cons_component cl Minor), expand_cons_const.
  by rewrite (expand_cons_component cl Patch), expand_nil, app_nil_r.
Qed.

Lemma VER_LEGALCOPYRIGHT_STR_replacements cl :
  VER_LEGALCOPYRIGHT_STR (resource_h (predefined cl)) =
    [Const (StringLit "Copyright (C) ")] ++ replacement cl LicenseYears ++
    [Const (StringLit " "); Const (StringLit "Zabbix SIA\0")].
Proof.
  unfold VER_LEGALCOPYRIGHT_STR.
  by rewrite (expand_cons_component cl LicenseYears), expand_nil, app_nil_r.
Qed.

(** Resolution in closed form: it fails only when a component that is
    turned into a string literal is bound to tokens with a comma. *)
Lemma resolve_closed_form cl :
  resolve cl =
    if comma_free cl then Ok (descriptor_of cl)
    else Err (WrongArgumentCount "ZBX_STR2").
Proof.
  pose proof (ZBX_STR_component cl Major) as HM.
  pose proof (ZBX_STR_component cl Minor) as Hm.
  pose proof (ZBX_STR_component cl Patch) as Hp.
  pose proof (ZBX_STR_component cl Revision) as Hr.
  simpl macro_of in *.
  unfold resolve, VER_FILEVERSION_STR, VER_PRODUCTVERSION_STR.
  rewrite HM, Hm, Hp, Hr.
  rewrite VER_FILEVERSION_replacements, VER_PRODUCTVERSION_replacements,
    VER_LEGALCOPYRIGHT_STR_replacements.
  rewrite (expand_cons_component cl ReleaseCandidateTag), expand_nil, app_nil_r.
  unfold comma_free, stringized_components, descriptor_of. simpl forallb.
  by repeat destruct (has_comma _).
Qed.

End header.

(** ** Strings denoted by token sequences *)

Section strings.

Implicit Types (s t : string) (ts : list token).

Lemma append_cons c s t : String c s +:+ t = String c (s +:+ t).
Proof. done. Qed.

Lemma append_nil_r s : s +:+ "" = s.
Proof. induction s as [|c s IH]; [done|]. by rewrite append_cons, IH. Qed.

Lemma append_assoc s t u : (s +:+ t) +:+ u = s +:+ t +:+ u.
Proof. induction s as [|c s IH]; [done|]. by rewrite !append_cons, IH. Qed.

Lemma concat_cons s (l : list string) : String.concat "" (s :: l) = s +:+ String.concat "" l.
Proof. destruct l; simpl; [by rewrite append_nil_r | done]. Qed.

Lemma string_value_nil : string_value [] = Some "".
Proof. done. Qed.

Lemma string_value_cons tok ts :
  string_value (tok :: ts) =
    a ← token_chars tok; b ← string_value ts; Some (a +:+ b).
Proof.
  unfold string_value.
  change (mapM token_chars (tok :: ts)) with
    (a ← token_chars tok; l ← mapM token_chars ts; mret (a :: l)).
  destruct (token_chars tok) as [a|]; [|done].
  destruct (mapM token_chars ts) as [l|]; [|done].
  change (Some (String.concat "" (a :: l)) = Some (a +:+ String.concat "" l)).
  by rewrite concat_cons.
Qed.

Lemma string_value_literal s ts :
  string_value (Const (StringLit s) :: ts) =
    a ← literal_chars s; b ← string_value ts; Some (a +:+ b).
Proof. apply string_value_cons. Qed.

Lemma string_value_app ts1 ts2 :
  string_value (ts1 ++ ts2) =
    a ← string_value ts1; b ← string_value ts2; Some (a +:+ b).
Proof.
  induction ts1 as [|tok ts1 IH].
  - change ([] ++ ts2) with ts2. rewrite string_value_nil.
    by destruct (string_value ts2).
  - change ((tok :: ts1) ++ ts2) with (tok :: (ts1 ++ ts2)).
    rewrite !string_value_cons, IH.
    destruct (token_chars tok) as [a|]; [|done].
    destruct (string_value ts1) as [b|]; [|done].
    destruct (string_value ts2) as [c|]; [|done].
    change (Some (a +:+ b +:+ c) = Some ((a +:+ b) +:+ c)).
    by rewrite append_assoc.
Qed.

(** A sequence with a token that is no string literal denotes no string. *)
Lemma string_value_None tok ts :
  tok ∈ ts → token_chars tok = None → string_value ts = None.
Proof.
  intros Hin Ht. unfold string_value.
  replace (mapM token_chars ts) with (@None (list string)); [done|].
  symmetry. apply mapM_None. apply list.Exists_exists. eauto.
Qed.

(** Reading a decimal numeral gives the number back. *)
Lemma decimal_value_decimal n : decimal_value (decimal n) = Some n.
Proof.
  unfold decimal_value, decimal. rewrite NilZero.usu.
  - simpl. by rewrite DecimalN.Unsigned.of_to.
  - destruct n; [done|]. apply DecimalPos.Unsigned.to_uint_nonnil.
Qed.

End strings.

(** ** Resolution of fully bound components *)

Section bound_components.

Variable description : option (list constant).
Variable vc : VersionComponents.

Lemma resolve_bind : resolve (bind description vc) = Ok (descriptor_of (bind description vc)).
Proof. by rewrite resolve_closed_form. Qed.

Lemma stringify_number s : stringify [Const (Number s)] = Const (StringLit s).
Proof. done. Qed.

Lemma literal_chars_dot : literal_chars "." = Some ".".
Proof. done. Qed.

Lemma literal_chars_NUL : literal_chars "\0" = Some (String NUL "").
Proof. done. Qed.

Lemma split_on_decimal n rest :
  split_on "." (decimal n +:+ "." +:+ rest) = decimal n :: split_on "." rest.
Proof. by apply (split_on_app "." (decimal n) rest), decimal_no_char. Qed.

Lemma split_on_decimal_last n : split_on "." (decimal n) = [decimal n].
Proof. by apply split_on_plain, decimal_no_char. Qed.

Lemma no_char_decimal_dot x n rest :
  is_digit x = false → x ≠ "."%char →
  no_char x (decimal n +:+ "." +:+ rest) = no_char x rest.
Proof.
  intros Hx Hdot. rewrite no_char_app, decimal_no_char by done.
  change ("." +:+ rest) with (String "." rest). simpl.
  by rewrite bool_decide_eq_false_2 by done.
Qed.

Lemma field_value_decimal n : field_value [Const (Number (decimal n))] = Some n.
Proof. apply decimal_value_decimal. Qed.

End bound_components.

(** * The claims *)

(** Rewrites the string denoted by a sequence of literals into the
    concatenation of their characters. *)
Ltac literal_sequence :=
  rewrite ?string_value_literal, ?string_value_nil,
    ?literal_chars_decimal, ?literal_chars_dot, ?literal_chars_NUL;
  cbn [mbind option_bind mret option_ret fmap option_fmap option_map];
  rewrite ?append_nil_r.

(** C1: with every component bound, the file version string is the four
    decimal numerals of major, minor, patch and revision, in that order,
    joined by dots (and terminated by the NUL of the header's ["\0"]); it
    splits at the dots into exactly these four numerals. *)
Theorem fileVersionString_dotted description vc :
  let dotted :=
    decimal (major vc) +:+ "." +:+ decimal (minor vc) +:+ "." +:+
    decimal (patch vc) +:+ "." +:+ decimal (revision vc) in
  ∃ d, resolve (bind description vc) = Ok d ∧
    string_value (fileVersionString d) = Some (dotted +:+ String NUL "") ∧
    text_of (fileVersionString d) = Some dotted ∧
    split_on "." dotted =
      [decimal (major vc); decimal (minor vc); decimal (patch vc); decimal (revision vc)].
Proof.
  intros dotted. eexists. split; [apply resolve_bind|].
  assert (string_value (fileVersionString (descriptor_of (bind description vc)))
          = Some (dotted +:+ String NUL "")) as Hvalue.
  { cbn [fileVersionString descriptor_of]. unfold replacement. cbn [bound bind fmap list_fmap
      D_ZABBIX_VERSION_MAJOR D_ZABBIX_VERSION_MINOR D_ZABBIX_VERSION_PATCH D_ZABBIX_VERSION_REVISION].
    rewrite !stringify_number. literal_sequence.
    unfold dotted. by rewrite !append_assoc. }
  split; [done|]. split.
  - unfold text_of. rewrite Hvalue. cbn [fmap option_fmap option_map]. f_equal.
    apply c_str_terminated. unfold dotted.
    rewrite !no_char_decimal_dot by done. by apply decimal_no_char.
  - unfold dotted. by rewrite !split_on_decimal, split_on_decimal_last.
Qed.

(** C2: with every component bound, the product version string is the
    decimal numerals of major, minor and patch joined by dots, followed
    directly by the characters of the release candidate tag, with nothing
    inserted between them and the tag taken as it is. *)
Theorem productVersionString_appends_tag description vc :
  let dotted :=
    decimal (major vc) +:+ "." +:+ decimal (minor vc) +:+ "." +:+ decimal (patch vc) in
  ∃ d, resolve (bind description vc) = Ok d ∧
    productVersionString d =
      [Const (StringLit (decimal (major vc))); Const (StringLit ".");
       Const (StringLit (decimal (minor vc))); Const (StringLit ".");
       Const (StringLit (decimal (patch vc)));
       Const (StringLit (releaseCandidateTag vc)); Const (StringLit "\0")] ∧
    string_value (productVersionString d) =
      (λ tag, dotted +:+ tag +:+ String NUL "") <$> literal_chars (releaseCandidateTag vc) ∧
    text_of (productVersionString d) =
      (λ tag, dotted +:+ c_str tag) <$> literal_chars (releaseCandidateTag vc).
Proof.
  intros dotted. eexists. split; [apply resolve_bind|]. split; [done|].
  assert (string_value (productVersionString (descriptor_of (bind description vc)))
          = (λ tag, dotted +:+ tag +:+ String NUL "") <$>
            literal_chars (releaseCandidateTag vc)) as Hvalue.
  { change (productVersionString _) with
      [Const (StringLit (decimal (major vc))); Const (StringLit ".");
       Const (StringLit (decimal (minor vc))); Const (StringLit ".");
       Const (StringLit (decimal (patch vc)));
       Const (StringLit (releaseCandidateTag vc)); Const (StringLit "\0")].
    rewrite !string_value_literal, string_value_nil,
      !literal_chars_decimal, !literal_chars_dot, literal_chars_NUL.
    destruct (literal_chars (releaseCandidateTag vc)) as [tag|];
      cbn [mbind option_bind mret option_ret fmap option_fmap option_map]; [|done].
    unfold dotted. by rewrite append_nil_r, !append_assoc. }
  split; [done|].
  unfold text_of. rewrite Hvalue.
  destruct (literal_chars (releaseCandidateTag vc)) as [tag|]; [|done].
  cbn [fmap option_fmap option_map]. f_equal.
  rewrite <-append_assoc, c_str_NUL_r. apply c_str_app. unfold dotted.
  rewrite !no_char_decimal_dot by done. by apply decimal_no_char.
Qed.

(** C3: with every component bound, the numeric file version is the four
    numbers major, minor, patch and release candidate ordinal, and the
    numeric product version the three numbers major, minor and patch, each
    the component itself, in this order. *)
Theorem numeric_versions_map_fields description vc :
  ∃ d, resolve (bind description vc) = Ok d ∧
    numericFileVersion d =
      [Const (Number (decimal (major vc))); Const (Punct Comma);
       Const (Number (decimal (minor vc))); Const (Punct Comma);
       Const (Number (decimal (patch vc))); Const (Punct Comma);
       Const (Number (decimal (releaseCandidateOrdinal vc)))] ∧
    tuple_value (numericFileVersion d) =
      Some [major vc; minor vc; patch vc; releaseCandidateOrdinal vc] ∧
    numericProductVersion d =
      [Const (Number (decimal (major vc))); Const (Punct Comma);
       Const (Number (decimal (minor vc))); Const (Punct Comma);
       Const (Number (decimal (patch vc)))] ∧
    tuple_value (numericProductVersion d) = Some [major vc; minor vc; patch vc].
Proof.
  eexists. split; [apply resolve_bind|].
  split; [done|]. split; [|split; [done|]].
  - change (numericFileVersion _) with
      [Const (Number (decimal (major vc))); Const (Punct Comma);
       Const (Number (decimal (minor vc))); Const (Punct Comma);
       Const (Number (decimal (patch vc))); Const (Punct Comma);
       Const (Number (decimal (releaseCandidateOrdinal vc)))].
    unfold tuple_value.
    change (fields _) with
      [[Const (Number (decimal (major vc)))]; [Const (Number (decimal (minor vc)))];
       [Const (Number (decimal (patch vc)))];
       [Const (Number (decimal (releaseCandidateOrdinal vc)))]].
    cbn [mapM]. by rewrite !field_value_decimal.
  - change (numericProductVersion _) with
      [Const (Number (decimal (major vc))); Const (Punct Comma);
       Const (Number (decimal (minor vc))); Const (Punct Comma);
       Const (Number (decimal (patch vc)))].
    unfold tuple_value.
    change (fields _) with
      [[Const (Number (decimal (major vc)))]; [Const (Number (decimal (minor vc)))];
       [Const (Number (decimal (patch vc)))]].
    cbn [mapM]. by rewrite !field_value_decimal.
Qed.

(** C7: with every component bound, the copyright string is the literal
    ["Copyright (C) "], the license years literal exactly as it was
    supplied, a space and the company name literal: its characters are
    those of the license years between the fixed prefix and the company
    name. *)
Theorem legalCopyright_interpolates_years description vc :
  ∃ d, resolve (bind description vc) = Ok d ∧
    legalCopyright d =
      [Const (StringLit "Copyright (C) "); Const (StringLit (licenseYears vc));
       Const (StringLit " ")] ++ VER_COMPANYNAME_STR ∧
    string_value (legalCopyright d) =
      (λ years, "Copyright (C) " +:+ years +:+ " Zabbix SIA" +:+ String NUL "")
        <$> literal_chars (licenseYears vc).
Proof.
  eexists. split; [apply resolve_bind|]. split; [done|].
  change (legalCopyright _) with
    [Const (StringLit "Copyright (C) "); Const (StringLit (licenseYears vc));
     Const (StringLit " "); Const (StringLit "Zabbix SIA\0")].
  rewrite !string_value_literal, string_value_nil.
  rewrite (literal_chars_plain "Copyright (C) "), (literal_chars_plain " ") by done.
  change (literal_chars "Zabbix SIA\0") with (Some ("Zabbix SIA" +:+ String NUL "")).
  destruct (literal_chars (licenseYears vc)) as [years|];
    cbn [mbind option_bind mret option_ret fmap option_fmap option_map]; [|done].
  by rewrite append_nil_r.
Qed.

(** C8: the descriptor is a function of the version components alone:
    two command lines that bind the seven components alike resolve to the
    same result, whatever else they define. *)
Theorem resolve_deterministic cl1 cl2 :
  (∀ c, bound cl1 c = bound cl2 c) → resolve cl1 = resolve cl2.
Proof.
  intros Hsame.
  assert (∀ c, replacement cl1 c = replacement cl2 c) as Hreplacement.
  { intros c. unfold replacement. by rewrite Hsame. }
  rewrite !resolve_closed_form.
  unfold comma_free, descriptor_of, stringized_components. cbn [forallb].
  by rewrite !Hreplacement.
Qed.

Lemma resolve_deterministic_witness :
  (∀ c, bound (bind None release_7_2_5) c
        = bound (bind (Some [StringLit "Zabbix agent 2 plugin"]) release_7_2_5) c) ∧
  resolve (bind None release_7_2_5)
    = resolve (bind (Some [StringLit "Zabbix agent 2 plugin"]) release_7_2_5).
Proof.
  split; [by intros [] | apply resolve_deterministic; by intros []].
Defined.

(** C9: the components 7, 2, 5, revision 3, empty tag, ordinal 0 and
    license years 2001-2025 resolve to the file version string 7.2.5.3, the
    product version string 7.2.5, the numeric file version 7,2,5,0 and a
    copyright string that contains 2001-2025. *)
Theorem release_7_2_5_resolved description :
  ∃ d, resolve (bind description release_7_2_5) = Ok d ∧
    text_of (fileVersionString d) = Some "7.2.5.3" ∧
    text_of (productVersionString d) = Some "7.2.5" ∧
    numericFileVersion d =
      [Const (Number "7"); Const (Punct Comma); Const (Number "2"); Const (Punct Comma);
       Const (Number "5"); Const (Punct Comma); Const (Number "0")] ∧
    tuple_value (numericFileVersion d) = Some [7; 2; 5; 0]%N ∧
    ∃ text, text_of (legalCopyright d) = Some text ∧ contains "2001-2025" text.
Proof.
  exists (descriptor_of (bind description release_7_2_5)).
  split; [apply resolve_bind|].
  repeat split; try reflexivity.
  exists "Copyright (C) 2001-2025 Zabbix SIA". split; [reflexivity|].
  by exists "Copyright (C) ", " Zabbix SIA".
Qed.

(** A sequence that ends with a literal whose characters end with NUL
    carries that NUL at the end of the string it denotes. *)
Lemma NUL_terminated_snoc front s text :
  literal_chars s = Some (text +:+ String NUL "") →
  NUL_terminated (front ++ [Const (StringLit s)]).
Proof.
  intros Hs. split; [by exists front, s, text|].
  intros value. rewrite string_value_app, string_value_literal, Hs, string_value_nil.
  destruct (string_value front) as [a|];
    cbn [mbind option_bind mret option_ret]; [|done].
  intros [= <-]. exists (a +:+ text). by rewrite append_nil_r, append_assoc.
Qed.

(** C10: every string field of a resolved descriptor ends with a literal
    that carries an explicit NUL: ["\0"] itself for the two version
    strings, the company and product name literals, and for the copyright
    string the company name literal that ends it.  The string that the
    field denotes therefore ends with a NUL beyond its text. *)
Theorem string_fields_NUL_terminated cl d :
  resolve cl = Ok d →
  (∃ front, fileVersionString d = front ++ [Const (StringLit "\0")]) ∧
  (∃ front, productVersionString d = front ++ [Const (StringLit "\0")]) ∧
  companyName d = [Const (StringLit "Zabbix SIA\0")] ∧
  productName d = [Const (StringLit "Zabbix\0")] ∧
  (∃ front, legalCopyright d = front ++ companyName d) ∧
  Forall NUL_terminated
    [fileVersionString d; productVersionString d; companyName d; productName d;
     legalCopyright d].
Proof.
  rewrite resolve_closed_form. destruct (comma_free cl); [|done].
  intros [= <-]. cbn [fileVersionString productVersionString companyName productName
    legalCopyright descriptor_of].
  set (tag := replacement cl ReleaseCandidateTag).
  set (years := replacement cl LicenseYears).
  assert (∀ (a b : list token) x, a ++ b ++ [x] = (a ++ b) ++ [x]) as Hsnoc
    by (intros; by rewrite app_assoc).
  split; [by eexists [_; _; _; _; _; _; _]|].
  split; [rewrite Hsnoc; by eexists|].
  split; [done|]. split; [done|].
  split; [exists ([Const (StringLit "Copyright (C) ")] ++ years ++ [Const (StringLit " ")]);
          by rewrite <-!app_assoc|].
  repeat apply Forall_cons_2; [..|apply Forall_nil_2].
  - by apply (NUL_terminated_snoc [_; _; _; _; _; _; _] "\0" "").
  - rewrite Hsnoc. by apply (NUL_terminated_snoc _ "\0" "").
  - by apply (NUL_terminated_snoc [] "Zabbix SIA\0" "Zabbix SIA").
  - by apply (NUL_terminated_snoc [] "Zabbix\0" "Zabbix").
  - replace (_ ++ years ++ _) with
      (([Const (StringLit "Copyright (C) ")] ++ years ++ [Const (StringLit " ")])
       ++ [Const (StringLit "Zabbix SIA\0")]) by (by rewrite <-!app_assoc).
    by apply (NUL_terminated_snoc _ "Zabbix SIA\0" "Zabbix SIA").
Qed.

Lemma string_fields_NUL_terminated_witness :
  resolve (bind None candidate_7_4_0) = Ok (descriptor_of (bind None candidate_7_4_0)) ∧
  Forall NUL_terminated
    [fileVersionString (descriptor_of (bind None candidate_7_4_0));
     productVersionString (descriptor_of (bind None candidate_7_4_0));
     companyName (descriptor_of (bind None candidate_7_4_0));
     productName (descriptor_of (bind None candidate_7_4_0));
     legalCopyright (descriptor_of (bind None candidate_7_4_0))].
Proof.
  split; [reflexivity|].
  apply (string_fields_NUL_terminated (bind None candidate_7_4_0)). reflexivity.
Defined.

(** C4, as claimed, fails for the revision: the header has no conditional
    definition of [ZABBIX_VERSION_REVISION].  With every other component
    bound and the revision left to the header, there is no default to
    substitute: the macro stays undefined and its name goes into the file
    version string. *)
Lemma revision_has_no_default :
  let cl := set_binding Revision None (bind None release_7_2_5) in
  bound cl Revision = None ∧
  built_in_default Revision = None ∧
  resource_h (predefined cl) !! macro_of Revision = None ∧
  ∃ d, resolve cl = Ok d ∧
    text_of (fileVersionString d) = Some "7.2.5.ZABBIX_VERSION_REVISION".
Proof.
  repeat split; try reflexivity.
  eexists. split; [by rewrite resolve_closed_form | reflexivity].
Qed.

(** C4, amended: a component that the command line binds keeps exactly
    that binding, as the definition of its macro and as its expansion; a
    component that it leaves unbound and that the header guards (all but
    the revision) gets the replacement list of the header's conditional
    definition; an unbound revision stays undefined. *)
Theorem define_once_if_absent cl c :
  let env := resource_h (predefined cl) in
  match bound cl c with
  | Some value =>
      env !! macro_of c = Some (Const <$> value) ∧
      expand env [Ident (macro_of c)] = Const <$> value
  | None =>
      if guarded c then
        ∃ body, built_in_default c = Some body ∧
          env !! macro_of c = Some body ∧
          expand env [Ident (macro_of c)] = body
      else
        built_in_default c = None ∧ env !! macro_of c = None
  end.
Proof.
  intros env.
  pose proof (resource_h_component cl c) as Hlookup.
  pose proof (expand_component cl c) as Hexpand.
  unfold replacement in Hexpand. fold env in Hlookup, Hexpand.
  destruct (bound cl c) as [value|]; [done|].
  destruct (built_in_default c) as [body|] eqn:Hdefault.
  - destruct c; cbn [guarded];
      first [exists body; split; [reflexivity | split; assumption]
            | vm_compute in Hdefault; discriminate Hdefault].
  - destruct c; cbn [guarded];
      first [split; [reflexivity | assumption]
            | vm_compute in Hdefault; discriminate Hdefault].
Qed.

(** C5, as claimed, fails: the header has no error for an invalid
    component.  With the major version absent, resolution succeeds with the
    brace placeholder in its place; with the major version bound to [-1] or
    to [1.5], it succeeds with these tokens in the numeric version and
    spelled out in the file version string. *)
Lemma invalid_major_resolves :
  (∃ d, resolve (set_binding Major None (bind None release_7_2_5)) = Ok d ∧
     numericFileVersion d =
       [Const (Punct LBrace); Ident "ZABBIX_VERSION_MAJOR"; Const (Punct RBrace);
        Const (Punct Comma); Const (Number "2"); Const (Punct Comma);
        Const (Number "5"); Const (Punct Comma); Const (Number "0")] ∧
     text_of (fileVersionString d) = Some "{ZABBIX_VERSION_MAJOR}.2.5.3") ∧
  (∃ d, resolve (set_binding Major (Some [Punct Minus; Number "1"])
                   (bind None release_7_2_5)) = Ok d ∧
     numericFileVersion d =
       [Const (Punct Minus); Const (Number "1");
        Const (Punct Comma); Const (Number "2"); Const (Punct Comma);
        Const (Number "5"); Const (Punct Comma); Const (Number "0")] ∧
     text_of (fileVersionString d) = Some "-1.2.5.3") ∧
  (∃ d, resolve (set_binding Major (Some [Number "1.5"])
                   (bind None release_7_2_5)) = Ok d ∧
     numericFileVersion d =
       [Const (Number "1.5");
        Const (Punct Comma); Const (Number "2"); Const (Punct Comma);
        Const (Number "5"); Const (Punct Comma); Const (Number "0")] ∧
     text_of (fileVersionString d) = Some "1.5.2.5.3").
Proof.
  repeat split; eexists; (split; [by vm_compute|]); by vm_compute.
Qed.

(** C5, amended: resolution validates no component.  It succeeds exactly
    when none of major, minor, patch and revision is bound to tokens with a
    comma, and fails otherwise with the preprocessor's complaint about the
    arguments of [ZBX_STR2].  When it succeeds, every numeric component
    stands in the numeric versions as its replacement: the bound tokens as
    they are, negative or non-integral ones included, and for an absent
    major, minor, patch or ordinal the placeholder of the header; the
    file version string spells the same replacements out. *)
Theorem numeric_components_not_validated cl :
  is_ok (resolve cl) = comma_free cl ∧
  match resolve cl with
  | Ok d =>
      numericFileVersion d =
        replacement cl Major ++ [Const (Punct Comma)] ++
        replacement cl Minor ++ [Const (Punct Comma)] ++
        replacement cl Patch ++ [Const (Punct Comma)] ++
        replacement cl ReleaseCandidateOrdinal ∧
      numericProductVersion d =
        replacement cl Major ++ [Const (Punct Comma)] ++
        replacement cl Minor ++ [Const (Punct Comma)] ++
        replacement cl Patch ∧
      fileVersionString d =
        [stringify (replacement cl Major); Const (StringLit ".");
         stringify (replacement cl Minor); Const (StringLit ".");
         stringify (replacement cl Patch); Const (StringLit ".");
         stringify (replacement cl Revision); Const (StringLit "\0")]
  | Err e => e = WrongArgumentCount "ZBX_STR2"
  end ∧
  ∀ c, replacement cl c =
    match bound cl c with
    | Some value => Const <$> value
    | None =>
        if guarded c
        then [Const (Punct LBrace);
              Ident (if decide (c = ReleaseCandidateOrdinal) then "ZABBIX_RC_NUM"
                     else macro_of c);
              Const (Punct RBrace)]
        else [Ident (macro_of c)]
    end.
Proof.
  rewrite resolve_closed_form. split; [by destruct (comma_free cl)|].
  split; [by destruct (comma_free cl)|].
  intros c. unfold replacement. destruct (bound cl c); [done|].
  by destruct c; vm_compute.
Qed.

(** C6, as claimed, fails: the default of an absent tag or of absent
    license years is the brace placeholder, which is no string literal.
    Resolution succeeds, but the product version string, or the copyright
    string, of the descriptor is then no sequence of string literals and
    denotes no string. *)
Lemma absent_optional_component_no_string :
  (∃ d, resolve (set_binding ReleaseCandidateTag None (bind None release_7_2_5)) = Ok d ∧
     productVersionString d =
       [Const (StringLit "7"); Const (StringLit "."); Const (StringLit "2");
        Const (StringLit "."); Const (StringLit "5");
        Const (Punct LBrace); Ident "ZABBIX_VERSION_RC"; Const (Punct RBrace);
        Const (StringLit "\0")] ∧
     string_value (productVersionString d) = None) ∧
  (∃ d, resolve (set_binding LicenseYears None (bind None release_7_2_5)) = Ok d ∧
     legalCopyright d =
       [Const (StringLit "Copyright (C) ");
        Const (Punct LBrace); Ident "ZABBIX_LICENSE_YEARS"; Const (Punct RBrace);
        Const (StringLit " "); Const (StringLit "Zabbix SIA\0")] ∧
     string_value (legalCopyright d) = None).
Proof.
  split; eexists; (split; [by vm_compute|]); by vm_compute.
Qed.

Lemma replacement_set_binding_ne c c' value cl :
  c ≠ c' → replacement (set_binding c value cl) c' = replacement cl c'.
Proof. intros Hne. unfold replacement. by destruct c, c'. Qed.

Lemma replacement_unbound_guarded c cl :
  guarded c = true →
  replacement (set_binding c None cl) c = default [] (built_in_default c).
Proof. intros Hc. unfold replacement. by destruct c. Qed.

(** C6, amended: leaving the tag or the license years unbound causes no
    error of resolution, which succeeds as it does with the component
    bound; the component is replaced by a fixed default, its macro's name
    in braces; that default is no string literal, so the product version
    string, or the copyright string, of the descriptor denotes no
    string. *)
Theorem absent_optional_components cl :
  let no_tag := set_binding ReleaseCandidateTag None cl in
  let no_years := set_binding LicenseYears None cl in
  (is_ok (resolve no_tag) = is_ok (resolve cl) ∧
   replacement no_tag ReleaseCandidateTag =
     [Const (Punct LBrace); Ident "ZABBIX_VERSION_RC"; Const (Punct RBrace)] ∧
   ∀ d, resolve no_tag = Ok d → string_value (productVersionString d) = None) ∧
  (is_ok (resolve no_years) = is_ok (resolve cl) ∧
   replacement no_years LicenseYears =
     [Const (Punct LBrace); Ident "ZABBIX_LICENSE_YEARS"; Const (Punct RBrace)] ∧
   ∀ d, resolve no_years = Ok d → string_value (legalCopyright d) = None).
Proof.
  intros no_tag no_years.
  assert (comma_free no_tag = comma_free cl) as Htag.
  { unfold comma_free, stringized_components, no_tag. cbn [forallb].
    by rewrite !replacement_set_binding_ne. }
  assert (comma_free no_years = comma_free cl) as Hyears.
  { unfold comma_free, stringized_components, no_years. cbn [forallb].
    by rewrite !replacement_set_binding_ne. }
  assert (replacement no_tag ReleaseCandidateTag =
          [Const (Punct LBrace); Ident "ZABBIX_VERSION_RC"; Const (Punct RBrace)]) as Hrc.
  { unfold no_tag. rewrite replacement_unbound_guarded by done. by vm_compute. }
  assert (replacement no_years LicenseYears =
          [Const (Punct LBrace); Ident "ZABBIX_LICENSE_YEARS"; Const (Punct RBrace)]) as Hly.
  { unfold no_years. rewrite replacement_unbound_guarded by done. by vm_compute. }
  rewrite !resolve_closed_form, Htag, Hyears.
  split; (split; [by destruct (comma_free cl)|]); (split; [assumption|]);
    intros d Hd; destruct (comma_free cl); try discriminate Hd; injection Hd as <-.
  - cbn [productVersionString descriptor_of]. rewrite Hrc.
    apply (string_value_None (Const (Punct LBrace))); [|reflexivity].
    rewrite !elem_of_app. right. left. by left.
  - cbn [legalCopyright descriptor_of]. rewrite Hly.
    apply (string_value_None (Const (Punct LBrace))); [|reflexivity].
    rewrite !elem_of_app. right. left. by left.
Qed.

(** ** Further properties *)

(** The include guard: the header defines [_RESOURCE_H_], so that
    including it a second time changes nothing. *)
Theorem resource_h_idempotent (env : macro_table) :
  resource_h (resource_h env) = resource_h env.
Proof.
  destruct (env !! "_RESOURCE_H_") as [body|] eqn:Hguard.
  - assert (resource_h env = env) as -> by (unfold resource_h; by rewrite Hguard).
    unfold resource_h. by rewrite Hguard.
  - assert (resource_h env !! "_RESOURCE_H_" = Some []) as Hdefined.
    { rewrite resource_h_lookup, Hguard by done. by vm_compute. }
    unfold resource_h at 1. by rewrite Hdefined.
Qed.

(** The release candidate of the specification's second example: the tag
    [rc1] follows the patch level directly, and the numeric product
    version is 7,4,0. *)
Theorem candidate_7_4_0_resolved description :
  ∃ d, resolve (bind description candidate_7_4_0) = Ok d ∧
    text_of (productVersionString d) = Some "7.4.0rc1" ∧
    numericProductVersion d =
      [Const (Number "7"); Const (Punct Comma); Const (Number "4"); Const (Punct Comma);
       Const (Number "0")] ∧
    tuple_value (numericProductVersion d) = Some [7; 4; 0]%N.
Proof.
  exists (descriptor_of (bind description candidate_7_4_0)).
  split; [apply resolve_bind|]. by repeat split.
Qed.

(** X2: the conditional definitions never change a macro that is defined:
    whatever the table holds for a name before the header, it holds
    after it. *)
Theorem resource_h_keeps_definitions (env : macro_table) x body :
  env !! x = Some body → resource_h env !! x = Some body.
Proof.
  intros Hx. destruct (env !! "_RESOURCE_H_") as [guard|] eqn:Hguard.
  - unfold resource_h. by rewrite Hguard.
  - by rewrite resource_h_lookup, Hx.
Qed.

Lemma resource_h_keeps_definitions_witness :
  predefined (bind None release_7_2_5) !! "ZABBIX_VERSION_MAJOR"
    = Some [Const (Number "7")] ∧
  resource_h (predefined (bind None release_7_2_5)) !! "ZABBIX_VERSION_MAJOR"
    = Some [Const (Number "7")].
Proof.
  split; [by vm_compute|].
  apply (resource_h_keeps_definitions _ "ZABBIX_VERSION_MAJOR"). by vm_compute.
Defined.



(** X4: on first inclusion, every guarded macro that is not yet defined, the
    file description among them, is defined as its placeholder. *)
Theorem resource_h_default (env : macro_table) x :
  env !! "_RESOURCE_H_" = None → env !! x = None → x ∈ guarded_names →
  resource_h env !! x = Some (placeholder x).
Proof.
  intros Hguard Hx Hin. rewrite resource_h_lookup, Hx by done.
  unfold guarded_names in Hin.
  repeat (apply elem_of_cons in Hin as [->|Hin]; [by vm_compute|]).
  by apply elem_of_nil in Hin.
Qed.

Lemma resource_h_default_witness :
  (∅ : macro_table) !! "_RESOURCE_H_" = None ∧
  (∅ : macro_table) !! "VER_FILEDESCRIPTION_STR" = None ∧
  "VER_FILEDESCRIPTION_STR" ∈ guarded_names ∧
  resource_h ∅ !! "VER_FILEDESCRIPTION_STR" = Some (placeholder "VER_FILEDESCRIPTION_STR").
Proof.
  assert ("VER_FILEDESCRIPTION_STR" ∈ guarded_names) as Hin by (by left).
  split; [reflexivity|]. split; [reflexivity|]. split; [exact Hin|].
  apply (resource_h_default ∅ "VER_FILEDESCRIPTION_STR"); [reflexivity..|exact Hin].
Defined.

(** *** Stringizing *)








(** X6: [ZBX_STR] stringizes what its argument expands to, [ZBX_STR2] the
    argument as it stands: for a macro defined as constants without a
    comma, the first gives the literal of the constants and the second
    the literal of the macro's name. *)
Theorem ZBX_STR_expands_then_stringizes (env : macro_table) x (value : list constant) :
  env !! x = Some (Const <$> value) →
  has_comma (Const <$> value) = false →
  ZBX_STR env [Ident x] = Ok (ZBX_STR2 (Const <$> value)) ∧
  ZBX_STR2 [Ident x] = Const (StringLit x).
Proof.
  intros Hx Hcomma. split; [|done].
  unfold ZBX_STR. by rewrite (expand_defined _ _ _ Hx), expand_constants, Hcomma.
Qed.

Lemma ZBX_STR_expands_then_stringizes_witness :
  ({["ZABBIX_VERSION_MAJOR" := [Const (Number "7")]]} : macro_table)
    !! "ZABBIX_VERSION_MAJOR" = Some (Const <$> [Number "7"]) ∧
  has_comma (Const <$> [Number "7"]) = false ∧
  ZBX_STR {["ZABBIX_VERSION_MAJOR" := [Const (Number "7")]]} [Ident "ZABBIX_VERSION_MAJOR"]
    = Ok (ZBX_STR2 (Const <$> [Number "7"])) ∧
  ZBX_STR2 [Ident "ZABBIX_VERSION_MAJOR"] = Const (StringLit "ZABBIX_VERSION_MAJOR").
Proof.
  split; [reflexivity|]. split; [reflexivity|].
  apply (ZBX_STR_expands_then_stringizes _ "ZABBIX_VERSION_MAJOR" [Number "7"]);
    reflexivity.
Defined.

(** X7: the default of [ZABBIX_VERSION_RC_NUM] names another macro,
    [ZABBIX_RC_NUM]: when the ordinal is left unbound and [ZABBIX_RC_NUM]
    is defined as constants, the ordinal expands to these constants in
    braces. *)
Theorem ZABBIX_VERSION_RC_NUM_default_rescanned (env : macro_table) (value : list constant) :
  env !! "_RESOURCE_H_" = None →
  env !! "ZABBIX_VERSION_RC_NUM" = None →
  env !! "ZABBIX_RC_NUM" = Some (Const <$> value) →
  expand (resource_h env) [Ident "ZABBIX_VERSION_RC_NUM"] =
    [Const (Punct LBrace)] ++ (Const <$> value) ++ [Const (Punct RBrace)].
Proof.
  intros Hguard Hordinal Hnum.
  assert (resource_h env !! "ZABBIX_VERSION_RC_NUM" =
          Some [Const (Punct LBrace); Ident "ZABBIX_RC_NUM"; Const (Punct RBrace)]) as Hdefault.
  { rewrite resource_h_lookup, Hordinal by done. by vm_compute. }
  rewrite (expand_defined _ _ _ Hdefault).
  rewrite expand_cons_const, (expand_cons _ (Ident _)), expand_cons_const, expand_nil.
  assert (delete "ZABBIX_VERSION_RC_NUM" (resource_h env) !! "ZABBIX_RC_NUM"
          = Some (Const <$> value)) as Hrescan.
  { rewrite lookup_delete_ne by discriminate. by rewrite resource_h_lookup, Hnum. }
  by rewrite (expand_defined _ _ _ Hrescan), expand_constants.
Qed.

Lemma ZABBIX_VERSION_RC_NUM_default_rescanned_witness :
  ({["ZABBIX_RC_NUM" := [Const (Number "3")]]} : macro_table) !! "_RESOURCE_H_" = None ∧
  ({["ZABBIX_RC_NUM" := [Const (Number "3")]]} : macro_table) !! "ZABBIX_VERSION_RC_NUM" = None ∧
  ({["ZABBIX_RC_NUM" := [Const (Number "3")]]} : macro_table) !! "ZABBIX_RC_NUM"
    = Some (Const <$> [Number "3"]) ∧
  expand (resource_h {["ZABBIX_RC_NUM" := [Const (Number "3")]]})
    [Ident "ZABBIX_VERSION_RC_NUM"] =
    [Const (Punct LBrace)] ++ (Const <$> [Number "3"]) ++ [Const (Punct RBrace)].
Proof.
  split; [reflexivity|]. split; [reflexivity|]. split; [reflexivity|].
  apply (ZABBIX_VERSION_RC_NUM_default_rescanned _ [Number "3"]); reflexivity.
Defined.

(** *** How the version macros hang together *)



(** X9: each component reaches only the fields whose macro names it.  When a
    command line and the same command line with one component rebound both
    resolve, the company and product names never differ; the revision
    changes only the file version string, the tag only the product version
    string, the ordinal only the numeric file version, the license years
    only the copyright string; major, minor and patch leave the copyright
    string alone. *)
Theorem component_reach cl c value d d' :
  resolve cl = Ok d →
  resolve (set_binding c value cl) = Ok d' →
  companyName d' = companyName d ∧
  productName d' = productName d ∧
  (c ≠ LicenseYears → legalCopyright d' = legalCopyright d) ∧
  (c ∈ [Revision; ReleaseCandidateTag; LicenseYears] →
   numericFileVersion d' = numericFileVersion d) ∧
  (c ∈ [Revision; ReleaseCandidateTag; ReleaseCandidateOrdinal; LicenseYears] →
   numericProductVersion d' = numericProductVersion d) ∧
  (c ∈ [ReleaseCandidateTag; ReleaseCandidateOrdinal; LicenseYears] →
   fileVersionString d' = fileVersionString d) ∧
  (c ∈ [Revision; ReleaseCandidateOrdinal; LicenseYears] →
   productVersionString d' = productVersionString d).
Proof.
  rewrite !resolve_closed_form.
  destruct (comma_free cl); [|done]. destruct (comma_free _); [|done].
  intros [= <-] [= <-]. cbn [companyName productName legalCopyright numericFileVersion
    numericProductVersion fileVersionString productVersionString descriptor_of].
  split; [done|]. split; [done|].
  repeat split; intros Hc.
  - by rewrite replacement_set_binding_ne.
  - rewrite !replacement_set_binding_ne; [done|..]; intros ->;
      by repeat (apply elem_of_cons in Hc as [Hc|Hc]; [discriminate Hc|]);
         apply elem_of_nil in Hc.
  - rewrite !replacement_set_binding_ne; [done|..]; intros ->;
      by repeat (apply elem_of_cons in Hc as [Hc|Hc]; [discriminate Hc|]);
         apply elem_of_nil in Hc.
  - rewrite !replacement_set_binding_ne; [done|..]; intros ->;
      by repeat (apply elem_of_cons in Hc as [Hc|Hc]; [discriminate Hc|]);
         apply elem_of_nil in Hc.
  - rewrite !replacement_set_binding_ne; [done|..]; intros ->;
      by repeat (apply elem_of_cons in Hc as [Hc|Hc]; [discriminate Hc|]);
         apply elem_of_nil in Hc.
Qed.

Lemma component_reach_witness :
  let cl := bind None release_7_2_5 in
  let cl' := set_binding Revision (Some [Number "4"]) cl in
  resolve cl = Ok (descriptor_of cl) ∧
  resolve cl' = Ok (descriptor_of cl') ∧
  numericFileVersion (descriptor_of cl') = numericFileVersion (descriptor_of cl) ∧
  productVersionString (descriptor_of cl') = productVersionString (descriptor_of cl) ∧
  legalCopyright (descriptor_of cl') = legalCopyright (descriptor_of cl).
Proof.
  intros cl cl'.
  assert (resolve cl = Ok (descriptor_of cl)) as Hcl by (by vm_compute).
  assert (resolve cl' = Ok (descriptor_of cl')) as Hcl' by (by vm_compute).
  split; [exact Hcl|]. split; [exact Hcl'|].
  pose proof (component_reach cl Revision (Some [Number "4"]) _ _ Hcl Hcl')
    as (_ & _ & Hcopyright & Hfile & _ & _ & Hproduct).
  split; [apply Hfile; by left|]. split; [apply Hproduct; by left|].
  by apply Hcopyright.
Defined.

(** X10: resolution never fails over the release candidate ordinal, the tag or
    the license years: whatever one of them is bound to, or if it is left
    unbound, resolution succeeds or fails as it did before.  These three
    are never stringized, so even a comma in them goes unnoticed. *)
Theorem unstringized_components_never_fail cl value :
  is_ok (resolve (set_binding ReleaseCandidateOrdinal value cl)) = is_ok (resolve cl) ∧
  is_ok (resolve (set_binding ReleaseCandidateTag value cl)) = is_ok (resolve cl) ∧
  is_ok (resolve (set_binding LicenseYears value cl)) = is_ok (resolve cl).
Proof.
  rewrite !resolve_closed_form.
  assert (∀ c, c ∉ stringized_components →
            comma_free (set_binding c value cl) = comma_free cl) as Hfree.
  { intros c Hc. unfold comma_free, stringized_components in *. cbn [forallb].
    rewrite !not_elem_of_cons in Hc. destruct_and!.
    by rewrite !replacement_set_binding_ne by done. }
  rewrite !Hfree; [by destruct (comma_free cl)|..];
    unfold stringized_components; rewrite !not_elem_of_cons;
    repeat split; try discriminate; apply not_elem_of_nil.
Qed.

(** X11: binding the tag to nothing is not leaving it unbound: with
    [ZABBIX_VERSION_RC] defined as the empty token sequence, the product
    version string is well formed and is the dotted major, minor and
    patch. *)
Theorem empty_tag_definition description vc :
  let dotted :=
    decimal (major vc) +:+ "." +:+ decimal (minor vc) +:+ "." +:+ decimal (patch vc) in
  ∃ d, resolve (set_binding ReleaseCandidateTag (Some []) (bind description vc)) = Ok d ∧
    string_value (productVersionString d) = Some (dotted +:+ String NUL "") ∧
    text_of (productVersionString d) = Some dotted.
Proof.
  intros dotted. eexists. split; [by rewrite resolve_closed_form|].
  assert (string_value (productVersionString
            (descriptor_of (set_binding ReleaseCandidateTag (Some []) (bind description vc))))
          = Some (dotted +:+ String NUL "")) as Hvalue.
  { change (productVersionString _) with
      [Const (StringLit (decimal (major vc))); Const (StringLit ".");
       Const (StringLit (decimal (minor vc))); Const (StringLit ".");
       Const (StringLit (decimal (patch vc))); Const (StringLit "\0")].
    rewrite !string_value_literal, string_value_nil,
      !literal_chars_decimal, !literal_chars_dot, literal_chars_NUL.
    cbn [mbind option_bind mret option_ret].
    unfold dotted. by rewrite append_nil_r, !append_assoc. }
  split; [done|].
  unfold text_of. rewrite Hvalue. cbn [fmap option_fmap option_map]. f_equal.
  apply c_str_terminated. unfold dotted.
  rewrite !no_char_decimal_dot by done. by apply decimal_no_char.
Qed.

(** *** The resource editor's block *)

Section studio.

Implicit Types (env : macro_table) (cl : CommandLine).

(** Two tables that agree on a set of names closed under the mentions of
    the first expand every token sequence over these names alike. *)
Lemma expand_agree (P : string → Prop) env1 env2 ts :
  (∀ x, P x → env1 !! x = env2 !! x) →
  (∀ x body y, P x → env1 !! x = Some body → Ident y ∈ body → P y) →
  (∀ y, Ident y ∈ ts → P y) →
  expand env1 ts = expand env2 ts.
Proof.
  remember (size env1) as n eqn:Hn. revert env1 env2 ts Hn.
  induction (lt_wf n) as [n _ IH]. intros env1 env2 ts -> Hagree Hclosed Hts.
  induction ts as [|t ts IHts]; [by rewrite !expand_nil|].
  rewrite (expand_cons env1), (expand_cons env2).
  rewrite IHts by (intros; apply Hts; by right). f_equal.
  destruct t as [x|k]; [|by rewrite !expand_const].
  assert (P x) as Hx by (apply Hts; by left).
  pose proof (Hagree x Hx) as Hlookup.
  destruct (env1 !! x) as [body|] eqn:H1.
  - rewrite (expand_defined env1 x body H1), (expand_defined env2 x body) by done.
    apply (IH (size (delete x env1))); [|done|..].
    + rewrite map_size_delete, H1.
      assert (size env1 ≠ 0) by (apply map_size_ne_0_lookup; eauto). lia.
    + intros y Hy. rewrite !lookup_delete. case_decide; [done|by apply Hagree].
    + intros y body' z Hy. rewrite lookup_delete. case_decide; [done|].
      intros Hbody Hz. by apply (Hclosed y body' z).
    + intros y Hy. by apply (Hclosed x body y).
  - by rewrite (expand_undefined env1), (expand_undefined env2).
Qed.

Lemma studio_defaults_lookup env x :
  x ∉ studio_names → studio_defaults env !! x = env !! x.
Proof.
  intros Hx. unfold studio_names in Hx. rewrite !not_elem_of_cons in Hx. destruct_and!.
  unfold studio_defaults. repeat case_match; try done. cbv zeta.
  by rewrite !lookup_define, !decide_False by congruence.
Qed.

Lemma version_name_unconditional x :
  version_name x → (x ∉ studio_names) ∧ x ≠ "APSTUDIO_INVOKED" ∧
    x ≠ "APSTUDIO_READONLY_SYMBOLS" ∧ x ≠ "_RESOURCE_H_".
Proof.
  intros [[c ->] | ->]; [destruct c|]; cbn [macro_of];
    unfold studio_names; rewrite !not_elem_of_cons;
    repeat split; try discriminate; apply not_elem_of_nil.
Qed.

(** The version macros mention version names only. *)
Lemma resource_h_closed cl x body y :
  version_name x → resource_h (predefined cl) !! x = Some body → Ident y ∈ body →
  version_name y.
Proof.
  intros [[c ->] | ->] Hbody Hy.
  - rewrite resource_h_component in Hbody. destruct (bound cl c) as [value|].
    + injection Hbody as <-. apply list_elem_of_fmap in Hy as (k & Hk & _). discriminate Hk.
    + destruct c; vm_compute in Hbody; simplify_eq.
      all: apply list_elem_of_In in Hy; simpl in Hy.
      all: destruct Hy as [Hy|[Hy|[Hy|[]]]]; try discriminate Hy.
      all: injection Hy as <-.
      all: first [by right | left; by eexists Major | left; by eexists Minor
                 | left; by eexists Patch | left; by eexists ReleaseCandidateTag
                 | left; by eexists LicenseYears].
  - by rewrite resource_h_ZABBIX_RC_NUM in Hbody.
Qed.

(** Under the whole header, with or without the resource editor, the
    version names are defined as under the conditional definitions. *)
Lemma resource_h_whole_lookup cl studio readonly x :
  version_name x →
  resource_h_whole
    (predefine "APSTUDIO_READONLY_SYMBOLS" readonly
      (predefine "APSTUDIO_INVOKED" studio (predefined cl))) !! x
  = resource_h (predefined cl) !! x.
Proof.
  intros Hx. destruct (version_name_unconditional x Hx) as (Hstudio & Hai & Hro & Hguard).
  assert (predefine "APSTUDIO_READONLY_SYMBOLS" readonly
            (predefine "APSTUDIO_INVOKED" studio (predefined cl)) !! "_RESOURCE_H_" = None)
    as Hfirst.
  { rewrite !lookup_predefine_ne by discriminate. apply predefined_guard. }
  unfold resource_h_whole. rewrite Hfirst, studio_defaults_lookup by done.
  rewrite resource_h_lookup by exact Hfirst.
  rewrite !lookup_predefine_ne by congruence.
  symmetry. apply resource_h_lookup, predefined_guard.
Qed.

End studio.

(** X12: the resource editor's block does not touch the version resource:
    under the whole header, whether or not [APSTUDIO_INVOKED] and
    [APSTUDIO_READONLY_SYMBOLS] are defined, every version macro expands
    as it does under the conditional definitions alone. *)
Theorem studio_leaves_version_macros cl studio readonly :
  let env := resource_h (predefined cl) in
  let env' :=
    resource_h_whole
      (predefine "APSTUDIO_READONLY_SYMBOLS" readonly
        (predefine "APSTUDIO_INVOKED" studio (predefined cl))) in
  VER_FILEVERSION env' = VER_FILEVERSION env ∧
  VER_FILEVERSION_STR env' = VER_FILEVERSION_STR env ∧
  VER_PRODUCTVERSION env' = VER_PRODUCTVERSION env ∧
  VER_PRODUCTVERSION_STR env' = VER_PRODUCTVERSION_STR env ∧
  VER_LEGALCOPYRIGHT_STR env' = VER_LEGALCOPYRIGHT_STR env.
Proof.
  intros env env'.
  assert (∀ ts, (∀ y, Ident y ∈ ts → ∃ c, y = macro_of c) →
            expand env' ts = expand env ts) as Hexpand.
  { intros ts Hts. symmetry. apply (expand_agree version_name).
    - intros x Hx. symmetry. by apply resource_h_whole_lookup.
    - intros x body y. apply resource_h_closed.
    - intros y Hy. left. by apply Hts. }
  assert (∀ c, expand env' [Ident (macro_of c)] = expand env [Ident (macro_of c)]) as Hone.
  { intros c. apply Hexpand. intros y Hy. apply list_elem_of_In in Hy.
    destruct Hy as [Hy|[]]. injection Hy as <-. by exists c. }
  assert (∀ c, ZBX_STR env' [Ident (macro_of c)] = ZBX_STR env [Ident (macro_of c)]) as Hstr.
  { intros c. unfold ZBX_STR. by rewrite Hone. }
  pose proof (Hstr Major) as HM. pose proof (Hstr Minor) as Hm.
  pose proof (Hstr Patch) as Hp. pose proof (Hstr Revision) as Hr.
  pose proof (Hone ReleaseCandidateTag) as Htag.
  pose proof (Hone LicenseYears) as Hyears.
  cbn [macro_of] in *.
  unfold VER_FILEVERSION, VER_FILEVERSION_STR, VER_PRODUCTVERSION,
    VER_PRODUCTVERSION_STR, VER_LEGALCOPYRIGHT_STR.
  rewrite HM, Hm, Hp, Hr, Htag, Hyears.
  repeat split; try done; apply Hexpand; intros y Hy;
    apply list_elem_of_In in Hy; simpl in Hy;
    repeat (destruct Hy as [Hy|Hy]; [try discriminate Hy|]); try done.
  all: try (injection Hy as <-;
    first [by exists Major | by exists Minor | by exists Patch
          | by exists ReleaseCandidateOrdinal]).
Qed.

(** X1: the include guard spans the whole header: once the header has been
    preprocessed, [_RESOURCE_H_] is defined, and preprocessing it again,
    the editor's block included, leaves the macro table as it is. *)
Theorem resource_h_whole_idempotent (env : macro_table) :
  resource_h_whole (resource_h_whole env) = resource_h_whole env ∧
  is_Some (resource_h_whole env !! "_RESOURCE_H_").
Proof.
  assert ("_RESOURCE_H_" ∉ studio_names) as Hname.
  { unfold studio_names. rewrite !not_elem_of_cons.
    repeat split; try discriminate. apply not_elem_of_nil. }
  destruct (env !! "_RESOURCE_H_") as [body|] eqn:Hguard.
  - assert (resource_h_whole env = env) as ->
      by (unfold resource_h_whole; by rewrite Hguard).
    split; [unfold resource_h_whole; by rewrite Hguard | by rewrite Hguard].
  - assert (resource_h_whole env !! "_RESOURCE_H_" = Some []) as Hdefined.
    { unfold resource_h_whole. rewrite Hguard, studio_defaults_lookup by exact Hname.
      rewrite resource_h_lookup, Hguard by exact Hguard. by vm_compute. }
    split; [|by rewrite Hdefined].
    unfold resource_h_whole at 1. by rewrite Hdefined.
Qed.
